(* ===================================================================== *)
(* modeltrees/_nodes.py : TreeNode and Split                             *)
(*                                                                       *)
(* A shallow embedding of the two classes of the module, and of the part *)
(* of NumPy's indexing that Split._apply_split consumes, followed by the *)
(* properties of the split operator and of the node constructor.         *)
(* ===================================================================== *)

From HB Require Import structures.
From mathcomp Require Import boot order.
From mathcomp Require Import ssralg ssrnum ssrint.

Set Implicit Arguments.
Unset Strict Implicit.
Unset Printing Implicit Defensive.

Import Order.TTheory GRing.Theory Num.Theory.

(* --------------------------------------------------------------------- *)
(* Exceptions and results                                                *)
(* --------------------------------------------------------------------- *)

(** The exceptions the modelled operations raise.  The first two are both
    Python's [IndexError]; the constructor records which of NumPy's two
    checks failed.  [TypeError] is only raised by the store-level model,
    when a reference does not hold an object of the kind an operation
    needs. *)
Inductive exception :=
| IndexOutOfBounds (index : int) (size : nat)
    (* index [index] is out of bounds for axis 1 with size [size] *)
| BooleanIndexMismatch (dim bool_dim : nat)
    (* boolean index did not match indexed array along axis 0 *)
| TypeError.

(** A computation either returns a value or raises. *)
Inductive result (A : Type) :=
| Ok of A
| Raise of exception.

Arguments Raise {A} _.

Definition bind A B (r : result A) (k : A -> result B) : result B :=
  match r with
  | Ok a => k a
  | Raise e => Raise e
  end.

Declare Scope result_scope.
Delimit Scope result_scope with result.
Notation "'do' x <- r ; k" := (bind r (fun x => k))
  (at level 200, x name, r at level 100, k at level 200,
   right associativity) : result_scope.
Local Open Scope result_scope.

Definition is_ok A (r : result A) : bool :=
  if r is Ok _ then true else false.

(** The exception is an instance of Python's [IndexError]. *)
Definition is_IndexError (e : exception) : bool :=
  if e is TypeError then false else true.

(* --------------------------------------------------------------------- *)
(* The array capability consumed from NumPy                              *)
(* --------------------------------------------------------------------- *)

(** NumPy's integer indexing along an axis of length [m]: an index
    [0 <= f < m] is taken as is, an index [-m <= f <= -1] counts from the
    end and denotes position [m + f]; there is no other legal index. *)
Definition axis_position (m : nat) (f : int) : option nat :=
  match f with
  | Posz k => if k < m then Some k else None
  | Negz k => if k < m then Some (m - k.+1) else None   (* f = - (k + 1) *)
  end.

(** A position below [m] as an element of ['I_m]. *)
Definition ordinal_of (m k : nat) : option 'I_m :=
  (if k < m as b return (k < m) = b -> option 'I_m
   then fun lt_k_m => Some (Ordinal lt_k_m)
   else fun _ => None) (erefl (k < m)).

(** The position selected by the index [f], or the IndexError NumPy
    raises when [f] is out of bounds. *)
Definition axis_index (m : nat) (f : int) : result 'I_m :=
  if obind (ordinal_of m) (axis_position m f) is Some j then Ok j
  else Raise (IndexOutOfBounds f m).

(** [f] is within the bounds of an axis of length [m]. *)
Definition in_bounds (m : nat) (f : int) : bool :=
  ((- m%:Z <= f) && (f < m%:Z))%R.

Section Arrays.

(** [T] is the element type of the feature matrix, with the comparison
    [<=] of the code; [U] is the type of one entry of the target (a scalar
    for a target of shape [n_samples], a row for [n_samples, n_outputs]). *)
Variables (disp : Order.disp_t) (T : porderType disp) (U : Type).

(** A 2-D array of shape [size X, n_features], stored row by row. *)
Definition ndarray (n_features : nat) : Type := seq (n_features.-tuple T).

Definition n_samples n_features (X : ndarray n_features) : nat := size X.

(** [X[:, f]] : the column of index [f]. *)
Definition column m (X : ndarray m) (f : int) : result (seq T) :=
  do j <- axis_index m f;
  Ok [seq tnth r j | r <- X].

(** [c <= t] : elementwise comparison of an array with a scalar. *)
Definition le_scalar (c : seq T) (t : T) : bitseq :=
  [seq (x <= t)%O | x <- c].

(** [~b] : elementwise negation of a boolean array. *)
Definition invert (b : bitseq) : bitseq := [seq ~~ x | x <- b].

(** [a[b]], [a[b, :]] : selection along the first axis by a boolean
    array.  The result is a new array holding, in order, the entries of
    [a] at the positions where [b] is true.  NumPy checks that [b] has the
    length of the axis, except when [b] has length 0: an empty boolean
    index is accepted on an axis of any length and selects nothing. *)
Definition bool_index A (a : seq A) (b : bitseq) : result (seq A) :=
  if (size b == size a) || (size b == 0) then Ok (mask b a)
  else Raise (BooleanIndexMismatch (size a) (size b)).

(* --------------------------------------------------------------------- *)
(* class Split                                                           *)
(* --------------------------------------------------------------------- *)

Record Split := MkSplit {
  split_feature : int;
  split_threshold : T
}.

(** One element of the list returned by [_apply_split]: an array of
    features when [y] is None, otherwise a pair of features and target. *)
Inductive subset (m : nat) :=
| Features of ndarray m
| Paired of ndarray m & seq U.

Definition subset_features m (s : subset m) : ndarray m :=
  match s with
  | Features X => X
  | Paired X _ => X
  end.

(** [Split._apply_split(self, X, y=None)]. *)
Definition _apply_split m (self : Split) (X : ndarray m) (y : option (seq U))
  : result (seq (subset m)) :=
  do c <- column X (split_feature self);
  let split_filter := le_scalar c (split_threshold self) in
  match y with
  | None =>
      do left <- bool_index X split_filter;
      do right <- bool_index X (invert split_filter);
      Ok [:: Features left; Features right]
  | Some y =>
      do left <- bool_index X split_filter;
      do left_y <- bool_index y split_filter;
      do right <- bool_index X (invert split_filter);
      do right_y <- bool_index y (invert split_filter);
      Ok [:: Paired left left_y; Paired right right_y]
  end.

(** [y], when supplied, has one entry per row of [X]. *)
Definition aligned m (X : ndarray m) (y : option (seq U)) : bool :=
  if y is Some yv then size yv == size X else true.

(** The row test of the split on column [j]: [row[j] <= threshold]. *)
Definition goes_left m (self : Split) (j : 'I_m) : pred (m.-tuple T) :=
  fun r => (tnth r j <= split_threshold self)%O.

(** The positions, in increasing order, of the rows of [X] that pass the
    test [p], and of those that fail it. *)
Definition left_positions m (p : pred (m.-tuple T)) (X : ndarray m)
  : seq nat :=
  mask [seq p r | r <- X] (iota 0 (size X)).

Definition right_positions m (p : pred (m.-tuple T)) (X : ndarray m)
  : seq nat :=
  mask (invert [seq p r | r <- X]) (iota 0 (size X)).

End Arrays.

Arguments Features {disp T U m} _.
Arguments Paired {disp T U m} _ _.

(** [sub] consists of the entries of [a] at the positions [idx], in the
    order of [idx]. *)
Definition selects A (idx : seq nat) (a sub : seq A) : Prop :=
  forall x0 : A, sub = [seq nth x0 a i | i <- idx].

(* --------------------------------------------------------------------- *)
(* The same method over a store of objects                               *)
(* --------------------------------------------------------------------- *)

(** Python passes [self], [X] and [y] by reference.  To speak about what a
    call does to the objects it is given, the method is also modelled over
    an explicit store: a location is a position in the store, allocation
    appends, and every NumPy operation of the body reads its operands and
    allocates its result.  [X[:, f]] is a view in NumPy; since nothing in
    the body writes through it, it is represented by an object holding the
    column's values. *)
Section Store.

Variables (disp : Order.disp_t) (T : porderType disp) (U : Type).

Inductive object :=
| ArrayObj m of ndarray T m      (* 2-D array of features *)
| ColumnObj of seq T             (* 1-D array of features *)
| BoolObj of bitseq              (* 1-D boolean array *)
| TargetObj of seq U             (* array of targets, indexed by sample *)
| SplitObj of Split T.           (* instance of class Split *)

Definition loc := nat.
Definition store := seq object.

Definition load (h : store) (l : loc) : option object := ohead (drop l h).

(** Store-passing computations that may raise; the store survives a
    raise. *)
Definition M (A : Type) : Type := store -> result A * store.

Definition ret A (a : A) : M A := fun h => (Ok a, h).

Definition raise A (e : exception) : M A := fun h => (Raise e, h).

Definition bind_st A B (c : M A) (k : A -> M B) : M B :=
  fun h => match c h with
           | (Ok a, h1) => k a h1
           | (Raise e, h1) => (Raise e, h1)
           end.

Definition lift A (r : result A) : M A := fun h => (r, h).

Definition new (o : object) : M loc := fun h => (Ok (size h), rcons h o).

Definition deref (l : loc) : M object :=
  fun h => if load h l is Some o then (Ok o, h) else (Raise TypeError, h).

End Store.

Arguments ArrayObj {disp T U m} _.
Arguments ColumnObj {disp T U} _.
Arguments BoolObj {disp T U} _.
Arguments TargetObj {disp T U} _.
Arguments SplitObj {disp T U} _.
Arguments ret {disp T U A} a.
Arguments raise {disp T U A} e.
Arguments lift {disp T U A} r.

Declare Scope store_scope.
Delimit Scope store_scope with store.
Notation "'do!' x <- c ; k" := (bind_st c (fun x => k))
  (at level 200, x name, c at level 100, k at level 200,
   right associativity) : store_scope.

Section StoreMethod.

Variables (disp : Order.disp_t) (T : porderType disp) (U : Type).

Local Notation object := (object T U).
Local Notation M := (M T U).
Local Open Scope store_scope.

(** Attribute access [self.split_feature], [self.split_threshold]. *)
Definition get_split (self : loc) : M (Split T) :=
  do! o <- deref self;
  if o is SplitObj s then ret s else raise TypeError.

(** [X[:, f]] *)
Definition getitem_column (X : loc) (f : int) : M loc :=
  do! o <- deref X;
  if o is ArrayObj m a then
    do! c <- lift (column a f); new (ColumnObj c)
  else raise TypeError.

(** [c <= t] *)
Definition le_st (c : loc) (t : T) : M loc :=
  do! o <- deref c;
  if o is ColumnObj v then new (BoolObj (le_scalar v t))
  else raise TypeError.

(** [~b] *)
Definition invert_st (b : loc) : M loc :=
  do! o <- deref b;
  if o is BoolObj v then new (BoolObj (invert v))
  else raise TypeError.

(** [a[b]] and [a[b, :]] for a boolean array [b]. *)
Definition getitem_bool (a b : loc) : M loc :=
  do! oa <- deref a;
  do! ob <- deref b;
  if ob is BoolObj v then
    match oa with
    | ArrayObj m x => do! r <- lift (bool_index x v); new (ArrayObj r)
    | ColumnObj x => do! r <- lift (bool_index x v); new (ColumnObj r)
    | BoolObj x => do! r <- lift (bool_index x v); new (BoolObj r)
    | TargetObj x => do! r <- lift (bool_index x v); new (TargetObj r)
    | SplitObj _ => raise TypeError
    end
  else raise TypeError.

(** What the returned list holds: references to the new arrays. *)
Inductive subset_ref :=
| FeaturesRef of loc
| PairedRef of loc & loc.

Definition subset_locs (s : subset_ref) : seq loc :=
  match s with
  | FeaturesRef l => [:: l]
  | PairedRef l l' => [:: l; l']
  end.

(** [Split._apply_split(self, X, y=None)] over the store. *)
Definition _apply_split_st (self X : loc) (y : option loc)
  : M (seq subset_ref) :=
  do! s <- get_split self;
  do! c <- getitem_column X (split_feature s);
  do! split_filter <- le_st c (split_threshold s);
  match y with
  | None =>
      do! left <- getitem_bool X split_filter;
      do! not_filter <- invert_st split_filter;
      do! right <- getitem_bool X not_filter;
      ret [:: FeaturesRef left; FeaturesRef right]
  | Some y =>
      do! left <- getitem_bool X split_filter;
      do! left_y <- getitem_bool y split_filter;
      do! not_filter <- invert_st split_filter;
      do! right <- getitem_bool X not_filter;
      do! not_filter' <- invert_st split_filter;
      do! right_y <- getitem_bool y not_filter';
      ret [:: PairedRef left left_y; PairedRef right right_y]
  end.

(** The store [h'] keeps every object of [h] where it was. *)
Definition extends (h h' : seq object) : Prop :=
  exists added, h' = h ++ added.

(** The location [l] was allocated on the way from [h] to [h']. *)
Definition fresh_in (h h' : seq object) (l : loc) : bool :=
  (size h <= l) && (l < size h').

(** [h] extends [h0] and the locations [ls] were allocated since [h0]. *)
Definition since (h0 : seq object) (ls : seq loc) (h : seq object) : Prop :=
  extends h0 h /\ all (fresh_in h0 h) ls.

(** From a store satisfying [P], the computation [c] only extends the
    store, and when it returns [a] in store [h'] then [Q a h'] holds. *)
Definition triple A (P : seq object -> Prop) (c : M A)
    (Q : A -> seq object -> Prop) : Prop :=
  forall h, P h ->
    extends h (c h).2 /\ (forall a, (c h).1 = Ok a -> Q a (c h).2).

(** [c] either raises in the store it was given, or appends one object
    and returns its location. *)
Definition allocating (c : M loc) : Prop :=
  forall h, (exists e, c h = (Raise e, h)) \/
            (exists o, c h = (Ok (size h), rcons h o)).

(** The reference [r] denotes the subset [s] in the store [h]. *)
Definition subset_at (h : seq object) m (r : subset_ref) (s : subset T U m)
  : Prop :=
  match r, s with
  | FeaturesRef l, Features a => load h l = Some (ArrayObj a)
  | PairedRef l l', Paired a y =>
      load h l = Some (ArrayObj a) /\ load h l' = Some (TargetObj y)
  | _, _ => False
  end.

Fixpoint subsets_at (h : seq object) m (rs : seq subset_ref)
    (ss : seq (subset T U m)) : Prop :=
  match rs, ss with
  | [::], [::] => True
  | r :: rs, s :: ss => subset_at h r s /\ subsets_at h rs ss
  | _, _ => False
  end.

(** The optional reference [y] denotes the optional target [yv]. *)
Definition target_at (h : seq object) (y : option loc)
    (yv : option (seq U)) : Prop :=
  match y, yv with
  | None, None => True
  | Some l, Some v => load h l = Some (TargetObj v)
  | _, _ => False
  end.

End StoreMethod.

(* --------------------------------------------------------------------- *)
(* class TreeNode                                                        *)
(* --------------------------------------------------------------------- *)

Section Tree.

(** [E] is the type of estimators, which the class only stores; [S] is
    the type of split descriptors. *)
Variables (E S : Type).

Inductive TreeNode := MkTreeNode {
  depth : int;
  estimator : option E;
  children : option (seq TreeNode);
  split : option S
}.

(** [TreeNode.__init__(self, depth=0, estimator=None, children=None,
    split=None)]: the four arguments are stored as given. *)
Definition __init__ (depth : int) (estimator : option E)
    (children : option (seq TreeNode)) (split : option S) : TreeNode :=
  {| depth := depth; estimator := estimator;
     children := children; split := split |}.

(** [TreeNode()], every argument at its default. *)
Definition default_node : TreeNode := __init__ 0%Z None None None.

(** The binary shape: [children] is None, or a list of exactly two nodes
    that have this shape themselves. *)
Fixpoint binary_shape (t : TreeNode) : bool :=
  match t with
  | MkTreeNode _ _ None _ => true
  | MkTreeNode _ _ (Some cs) _ => (size cs == 2) && all binary_shape cs
  end.

End Tree.

(* --------------------------------------------------------------------- *)
(* Sample data                                                           *)
(* --------------------------------------------------------------------- *)

Section Scenario.

(** [X = [[3],[5],[7]]], [y = [10,20,30]], [Split(0, 5)]. *)
Definition X_357 : ndarray int 1 :=
  [:: [tuple 3%Z]; [tuple 5%Z]; [tuple 7%Z]].
Definition y_357 : seq int := [:: 10%Z; 20%Z; 30%Z].
Definition split_0_5 : Split int := MkSplit 0%Z 5%Z.

(** A matrix with two columns and a split on its last column, addressed
    from the end: [Split(-1, 3)]. *)
Definition X_two_columns : ndarray int 2 :=
  [:: [tuple 1%Z; 9%Z]; [tuple 4%Z; 2%Z]; [tuple 0%Z; 3%Z];
      [tuple 4%Z; 2%Z]].
Definition y_two_columns : seq int := [:: 11%Z; 12%Z; 13%Z; 14%Z].
Definition split_last_3 : Split int := MkSplit (-1)%Z 3%Z.

(** A split whose feature index no column of the matrices above has. *)
Definition split_5_0 : Split int := MkSplit 5%Z 0%Z.

(** [Split(0, 7)], which every row of [X_357] passes, and a matrix with
    two columns whose first column is the column of [X_357]. *)
Definition split_0_7 : Split int := MkSplit 0%Z 7%Z.
Definition X_wide : ndarray int 2 :=
  [:: [tuple 3%Z; 0%Z]; [tuple 5%Z; 1%Z]; [tuple 7%Z; 2%Z]].

(** A store holding [Split(0, 5)], [X] and [y] of the first scenario at
    locations 0, 1 and 2. *)
Definition store_357 : store int int :=
  [:: SplitObj split_0_5; ArrayObj X_357; TargetObj y_357].

(** Nodes: a leaf built with every default, an internal node over two
    leaves with [Split(0, 0)], and a node that was handed a single
    child. *)
Definition leaf : TreeNode unit (Split int) := default_node unit (Split int).
Definition root_0_0 : TreeNode unit (Split int) :=
  __init__ 0%Z None (Some [:: leaf; leaf]) (Some (MkSplit 0%Z 0%Z)).
Definition one_child_node : TreeNode unit (Split int) :=
  __init__ 0%Z None (Some [:: leaf]) None.

End Scenario.

(* ===================================================================== *)
(* Properties                                                            *)
(* ===================================================================== *)

(* --------------------------------------------------------------------- *)
(* Integer indices                                                       *)
(* --------------------------------------------------------------------- *)

Section AxisIndex.

Local Open Scope ring_scope.

Lemma ordinal_ofP m k :
  (k < m)%N -> exists2 j : 'I_m, ordinal_of m k = Some j & nat_of_ord j = k.
Proof.
move=> lt_k_m; rewrite /ordinal_of.
suff gen b (e : (k < m)%N = b) : b ->
    exists2 j : 'I_m,
      (if b as b' return (k < m)%N = b' -> option 'I_m
       then fun lt' => Some (Ordinal lt') else fun _ => None) e = Some j
      & nat_of_ord j = k by exact: gen.
by case: b e => // e _; exists (Ordinal e).
Qed.

Lemma in_boundsE m f :
  in_bounds m f = (if f is Negz k then k < m else `|f| < m)%N.
Proof.
rewrite /in_bounds; case: f => k; first by rewrite leNz_nat ltz_nat.
by rewrite NegzE lerN2 lez_nat ltNz_nat andbT.
Qed.

Lemma axis_position_in_bounds m f :
  in_bounds m f -> exists2 k, axis_position m f = Some k & (k < m)%N.
Proof.
rewrite in_boundsE; case: f => k /= lt_k_m; rewrite lt_k_m.
  by exists k.
by exists (m - k.+1)%N; rewrite // ltn_subrL (leq_ltn_trans _ lt_k_m).
Qed.

Lemma axis_position_out m f : ~~ in_bounds m f -> axis_position m f = None.
Proof. by rewrite in_boundsE; case: f => k /= /negbTE ->. Qed.

Lemma axis_index_raise m f :
  ~~ in_bounds m f -> axis_index m f = Raise (IndexOutOfBounds f m).
Proof. by rewrite /axis_index => /axis_position_out ->. Qed.

Lemma axis_index_ok m f :
  in_bounds m f -> exists j : 'I_m, axis_index m f = Ok j.
Proof.
rewrite /axis_index => /axis_position_in_bounds [k -> /ordinal_ofP [j /= -> _]].
by exists j.
Qed.

(** The position selected: [f] itself, or [m + f] for a negative [f]. *)
Lemma axis_index_value m f (j : 'I_m) :
  axis_index m f = Ok j ->
  (nat_of_ord j)%:Z = (if f < 0 then m%:Z + f else f).
Proof.
rewrite /axis_index; case: f => k /=; case: ifP => //= lt_k_m.
  by case: (ordinal_ofP lt_k_m) => j' -> eq_j' [<-]; rewrite eq_j'.
have lt_pos : (m - k.+1 < m)%N by rewrite ltn_subrL (leq_ltn_trans _ lt_k_m).
case: (ordinal_ofP lt_pos) => j' -> eq_j' [<-].
by rewrite eq_j' NegzE subzn.
Qed.

Lemma axis_index_in_bounds m f j : axis_index m f = Ok j -> in_bounds m f.
Proof.
by move=> eq_j; apply: contraT => /axis_index_raise; rewrite eq_j.
Qed.

(** A negative index in bounds selects the same position as the index
    obtained by adding the length of the axis. *)
Lemma axis_index_from_end m f :
  f < 0 -> in_bounds m f -> axis_index m (m%:Z + f) = axis_index m f.
Proof.
case: f => // k _; rewrite in_boundsE => lt_k_m.
have lt_pos : (m - k.+1 < m)%N by rewrite ltn_subrL (leq_ltn_trans _ lt_k_m).
rewrite /axis_index NegzE subzn //= lt_k_m lt_pos /=.
by case: (ordinal_ofP lt_pos) => j ->.
Qed.

Lemma in_bounds_from_end m f :
  f < 0 -> in_bounds m f -> (0 <= m%:Z + f) && (m%:Z + f < m%:Z).
Proof.
case: f => // k _; rewrite in_boundsE => lt_k_m.
by rewrite NegzE subzn // le0z_nat ltz_nat ltn_subrL (leq_ltn_trans _ lt_k_m).
Qed.

End AxisIndex.

(* --------------------------------------------------------------------- *)
(* Boolean masks                                                         *)
(* --------------------------------------------------------------------- *)

Section Masks.

Variable A : Type.
Implicit Types (a : seq A) (b : bitseq).

Lemma size_invert b : size (invert b) = size b.
Proof. by rewrite /invert size_map. Qed.

Lemma invert_map B (p : pred B) (s : seq B) :
  invert [seq p x | x <- s] = [seq predC p x | x <- s].
Proof. by rewrite /invert -map_comp. Qed.

Lemma size_mask_invert b a :
  size b = size a -> size (mask b a) + size (mask (invert b) a) = size a.
Proof.
move=> eq_sz; rewrite !size_mask ?size_invert // /invert count_map.
by rewrite -eq_sz -(count_predC id b).
Qed.

(** The entries kept by a mask are those at the positions the mask keeps
    among [0, 1, ..., size a - 1]. *)
Lemma mask_selects b a : selects (mask b (iota 0 (size a))) a (mask b a).
Proof. by move=> x0; rewrite map_mask -/(mkseq _ _) mkseq_nth. Qed.

Lemma sorted_mask_iota b n : sorted ltn (mask b (iota 0 n)).
Proof. exact: sorted_mask ltn_trans _ _ (iota_ltn_sorted 0 n). Qed.

(** A position is kept by a mask exactly when the mask is true there. *)
Lemma mem_mask_iota b k n i :
  size b = n ->
  (i \in mask b (iota k n)) = (k <= i < k + n) && nth false b (i - k).
Proof.
elim: b k n => [|x b IHb] k [|n] //=.
  by rewrite addn0 leqNgt andNb.
case=> eq_sz; have -> : (i \in mask (x :: b) (k :: iota k.+1 n))
    = (x && (i == k)) || (i \in mask b (iota k.+1 n)).
  by case: x; rewrite /= ?in_cons.
rewrite (IHb _ _ eq_sz) addSnnS; case: (ltngtP i k) => [lt_ik|lt_ki|->].
- by rewrite andbF.
- by rewrite andbF /= -(subnSK lt_ki).
by rewrite andbT orbF subnn /= addnS ltnS leq_addr.
Qed.

Lemma bool_index_ok a b : size b = size a -> bool_index a b = Ok (mask b a).
Proof. by rewrite /bool_index => ->; rewrite eqxx. Qed.

Lemma bool_index_raise a b :
  size b != size a -> 0 < size b ->
  bool_index a b = Raise (BooleanIndexMismatch (size a) (size b)).
Proof. by rewrite /bool_index lt0n => /negbTE -> /negbTE ->. Qed.

(** An empty boolean index selects nothing, whatever the array. *)
Lemma bool_index_empty a : bool_index a [::] = Ok [::].
Proof. by rewrite /bool_index /= orbT. Qed.

End Masks.

Lemma perm_mask_invert (A : eqType) (b : bitseq) (a : seq A) :
  size b = size a -> perm_eq (mask b a ++ mask (invert b) a) a.
Proof.
elim: b a => [|x b IHb] [|z a] //= [/IHb perm_a].
case: x => /=; first by rewrite perm_cons.
by rewrite -cat1s perm_catCA /= perm_cons.
Qed.

(* --------------------------------------------------------------------- *)
(* What _apply_split computes                                            *)
(* --------------------------------------------------------------------- *)

Section SplitFacts.

Variables (disp : Order.disp_t) (T : porderType disp) (U : Type) (m : nat).
Implicit Types (self : Split T) (X : ndarray T m) (y : seq U) (j : 'I_m).

Lemma split_filterE self X j :
  le_scalar [seq tnth r j | r <- X] (split_threshold self)
  = [seq goes_left self j r | r <- X].
Proof. by rewrite /le_scalar -map_comp. Qed.

Lemma apply_split_features self X j :
  axis_index m (split_feature self) = Ok j ->
  _apply_split (U:=U) self X None
  = Ok [:: Features [seq r <- X | goes_left self j r];
           Features [seq r <- X | predC (goes_left self j) r]].
Proof.
move=> eq_j; rewrite /_apply_split /column eq_j /= split_filterE invert_map.
by rewrite !bool_index_ok ?size_map //= -!filter_mask.
Qed.

Lemma apply_split_paired self X y j :
  axis_index m (split_feature self) = Ok j -> size y = size X ->
  _apply_split self X (Some y)
  = Ok [:: Paired [seq r <- X | goes_left self j r]
                  (mask [seq goes_left self j r | r <- X] y);
           Paired [seq r <- X | predC (goes_left self j) r]
                  (mask [seq predC (goes_left self j) r | r <- X] y)].
Proof.
move=> eq_j eq_sz.
rewrite /_apply_split /column eq_j /= split_filterE invert_map.
by rewrite !bool_index_ok ?size_map //= -!filter_mask.
Qed.

Lemma apply_split_out_of_bounds self X (y : option (seq U)) :
  ~~ in_bounds m (split_feature self) ->
  _apply_split self X y
  = Raise (IndexOutOfBounds (split_feature self) m).
Proof. by move=> out; rewrite /_apply_split /column axis_index_raise. Qed.

Lemma apply_split_misaligned self X y :
  in_bounds m (split_feature self) -> size y != size X -> 0 < size X ->
  _apply_split self X (Some y)
  = Raise (BooleanIndexMismatch (size y) (size X)).
Proof.
case/axis_index_ok=> j eq_j ne_sz gt_X.
rewrite /_apply_split /column eq_j /= split_filterE.
rewrite bool_index_ok ?size_map //= bool_index_raise size_map //.
by rewrite eq_sym.
Qed.

(** On a matrix without rows the mask is empty, so a target of any
    length is accepted and nothing of it is selected. *)
Lemma apply_split_zero_rows self y :
  in_bounds m (split_feature self) ->
  _apply_split self ([::] : ndarray T m) (Some y)
  = Ok [:: Paired [::] [::]; Paired [::] [::]].
Proof.
case/axis_index_ok=> j eq_j.
by rewrite /_apply_split /column eq_j /= !bool_index_empty.
Qed.

Lemma apply_split_ok self X (y : option (seq U)) :
  in_bounds m (split_feature self) -> aligned X y ->
  is_ok (_apply_split self X y).
Proof.
case/axis_index_ok=> j eq_j; case: y => [y /eqP eq_sz|_].
  by rewrite (apply_split_paired eq_j eq_sz).
by rewrite (apply_split_features X eq_j).
Qed.

Lemma split_positions (p : pred (m.-tuple T)) X :
  [/\ sorted ltn (left_positions p X) /\ sorted ltn (right_positions p X),
      perm_eq (left_positions p X ++ right_positions p X) (iota 0 (size X)),
      selects (left_positions p X) X [seq r <- X | p r] /\
      selects (right_positions p X) X [seq r <- X | predC p r]
    & forall y, size y = size X ->
      selects (left_positions p X) y (mask [seq p r | r <- X] y) /\
      selects (right_positions p X) y (mask [seq predC p r | r <- X] y)].
Proof.
rewrite /left_positions /right_positions; split.
- by split; apply: sorted_mask_iota.
- by apply: perm_mask_invert; rewrite size_map size_iota.
- rewrite !filter_mask -invert_map.
  by split; apply: mask_selects.
move=> y eq_sz; rewrite -invert_map -eq_sz.
by split; apply: mask_selects.
Qed.

Lemma positions_in_range (p : pred (m.-tuple T)) X :
  all (fun i => i < size X) (left_positions p X) /\
  all (fun i => i < size X) (right_positions p X).
Proof.
by split; apply/allP=> i /mem_mask; rewrite mem_iota add0n.
Qed.

(** Row [i] is sent left exactly when it passes the test, and right
    exactly when it fails it. *)
Lemma mem_positions (p : pred (m.-tuple T)) X i r0 :
  i < size X ->
  (i \in left_positions p X) = p (nth r0 X i) /\
  (i \in right_positions p X) = ~~ p (nth r0 X i).
Proof.
move=> lt_i; rewrite /left_positions /right_positions invert_map.
rewrite !mem_mask_iota ?size_map // add0n subn0 lt_i /=.
by rewrite !(nth_map r0).
Qed.

Lemma size_mask_filter (p : pred (m.-tuple T)) X y :
  size y = size X -> size (mask [seq p r | r <- X] y) = size [seq r <- X | p r].
Proof. by move=> eq_sz; rewrite size_mask ?size_map // count_map size_filter. Qed.

Lemma map_all_true A (p : pred A) (s : seq A) :
  all p s -> [seq p x | x <- s] = nseq (size s) true.
Proof. by elim: s => //= x s IHs /andP[-> /IHs ->]. Qed.

Lemma map_all_false A (p : pred A) (s : seq A) :
  all p s -> [seq predC p x | x <- s] = nseq (size s) false.
Proof. by elim: s => //= x s IHs /andP[-> /IHs ->]. Qed.

End SplitFacts.

(* --------------------------------------------------------------------- *)
(* Properties of the split operator                                      *)
(* --------------------------------------------------------------------- *)

Section SplitProperties.

Variables (disp : Order.disp_t) (T : porderType disp) (U : Type) (m : nat).
Implicit Types (self : Split T) (X : ndarray T m) (j : 'I_m).

Local Open Scope ring_scope.

(** C1. Partition completeness.  When [split_feature] is a column index
    of [X], [_apply_split] returns a list of exactly two subsets whose row
    counts add up to the row count of [X]; the positions [0 .. n-1] of the
    input rows are distributed over the two subsets, each position in
    exactly one of them and exactly once.  The same holds for the target
    entries when a target with one entry per row is supplied. *)
Theorem apply_split_partition_complete self X :
  in_bounds m (split_feature self) ->
  (exists L R li ri,
     [/\ _apply_split (U:=U) self X None = Ok [:: Features L; Features R],
         (n_samples L + n_samples R)%N = n_samples X,
         perm_eq (li ++ ri) (iota 0 (n_samples X)),
         selects li X L & selects ri X R])
  /\
  (forall y : seq U, size y = n_samples X ->
   exists L R Ly Ry li ri,
     [/\ _apply_split self X (Some y) = Ok [:: Paired L Ly; Paired R Ry],
         (n_samples L + n_samples R)%N = n_samples X /\
         (size Ly + size Ry)%N = n_samples X,
         perm_eq (li ++ ri) (iota 0 (n_samples X)),
         selects li X L /\ selects li y Ly
       & selects ri X R /\ selects ri y Ry]).
Proof.
case/axis_index_ok=> j eq_j; rewrite /n_samples.
have [_ perm_lr [sel_l sel_r] sel_y] := split_positions U (goes_left self j) X.
set li := left_positions _ X in perm_lr sel_l sel_r sel_y.
set ri := right_positions _ X in perm_lr sel_l sel_r sel_y.
have sz_lr : (size (filter (goes_left self j) X)
              + size (filter (predC (goes_left self j)) X))%N = size X.
  by rewrite !size_filter count_predC.
split=> [|y eq_sz].
  exists (filter (goes_left self j) X), (filter (predC (goes_left self j)) X).
  by exists li, ri; split=> //; apply: apply_split_features.
have [sel_ly sel_ry] := sel_y y eq_sz.
exists (filter (goes_left self j) X), (filter (predC (goes_left self j)) X).
exists (mask [seq goes_left self j r | r <- X] y).
exists (mask [seq predC (goes_left self j) r | r <- X] y), li, ri.
split=> //; first exact: apply_split_paired.
by split=> //; rewrite -invert_map size_mask_invert // size_map.
Qed.

(** C2. Threshold tie-break.  Let [j] be the column selected by
    [split_feature].  Every position of [X] whose row has an entry equal
    to [split_threshold] in column [j] is among the positions that make
    up the left subset and not among those of the right subset.  In terms
    of rows: such a row occurs in the left subset as many times as in [X],
    and not at all in the right subset.  This holds with or without a
    target. *)
Theorem apply_split_tie_goes_left self X (y : option (seq U)) j :
  axis_index m (split_feature self) = Ok j -> aligned X y ->
  exists left right li ri,
    [/\ _apply_split self X y = Ok [:: left; right],
        selects li X (subset_features left) /\
        selects ri X (subset_features right),
        forall i r0, (i < n_samples X)%N ->
          tnth (nth r0 X i) j = split_threshold self ->
          (i \in li) /\ (i \notin ri)
      & forall r : m.-tuple T, tnth r j = split_threshold self ->
          count_mem r (subset_features left) = count_mem r X /\
          r \notin subset_features right].
Proof.
move=> eq_j al_y; pose p := goes_left self j.
have [_ _ [sel_l sel_r] _] := split_positions U p X.
have tie_pos i r0 : (i < n_samples X)%N ->
    tnth (nth r0 X i) j = split_threshold self ->
    (i \in left_positions p X) /\ (i \notin right_positions p X).
  move=> lt_i eq_t; have [-> ->] := mem_positions p r0 lt_i.
  by rewrite negbK /p /goes_left eq_t.
have tie_row r : tnth r j = split_threshold self ->
    count_mem r (filter p X) = count_mem r X /\ r \notin filter (predC p) X.
  move=> eq_t; have left_r : p r by rewrite /p /goes_left eq_t.
  split; last by rewrite mem_filter /= left_r.
  rewrite count_filter; apply: eq_count => r' /=.
  by case: eqP => // ->.
case: y al_y => [y /eqP eq_sz|_].
  rewrite (apply_split_paired eq_j eq_sz).
  by do 2!eexists; exists (left_positions p X), (right_positions p X); split.
rewrite (apply_split_features U X eq_j).
by do 2!eexists; exists (left_positions p X), (right_positions p X); split.
Qed.

(** C3. Stable partition and row alignment.  The positions [0 .. n-1] of
    the input are divided into two strictly increasing lists [li] and
    [ri], each position in exactly one of them; the left subset consists
    of the rows of [X] at the positions [li] and the right subset of the
    rows at the positions [ri], so no row is lost and the rows keep their
    relative order (each subset is a subsequence of [X]).  When a target
    is supplied, the target part of a subset consists of the entries of
    [y] at the very same positions, so the i-th target of a subset
    belongs to its i-th row. *)
Theorem apply_split_stable self X :
  in_bounds m (split_feature self) ->
  (exists L R li ri,
     [/\ _apply_split (U:=U) self X None = Ok [:: Features L; Features R],
         [/\ sorted ltn li, sorted ltn ri
            & perm_eq (li ++ ri) (iota 0 (n_samples X))],
         all (fun i => i < n_samples X)%N li /\
         all (fun i => i < n_samples X)%N ri,
         selects li X L /\ selects ri X R
       & subseq L X /\ subseq R X])
  /\
  (forall y : seq U, size y = n_samples X ->
   exists L R Ly Ry li ri,
     [/\ _apply_split self X (Some y) = Ok [:: Paired L Ly; Paired R Ry],
         [/\ sorted ltn li, sorted ltn ri
            & perm_eq (li ++ ri) (iota 0 (n_samples X))],
         all (fun i => i < n_samples X)%N li /\
         all (fun i => i < n_samples X)%N ri,
         [/\ selects li X L, selects li y Ly, selects ri X R
            & selects ri y Ry]
       & [/\ subseq L X, subseq R X, size Ly = n_samples L
            & size Ry = n_samples R]]).
Proof.
case/axis_index_ok=> j eq_j; rewrite /n_samples.
have [[sorted_l sorted_r] perm_lr [sel_l sel_r] sel_y] :=
  split_positions U (goes_left self j) X.
have in_range := positions_in_range (goes_left self j) X.
set li := left_positions _ X in sorted_l perm_lr in_range sel_l sel_r sel_y.
set ri := right_positions _ X in sorted_r perm_lr in_range sel_l sel_r sel_y.
split=> [|y eq_sz].
  exists (filter (goes_left self j) X), (filter (predC (goes_left self j)) X).
  exists li, ri; split=> //; first exact: apply_split_features.
  by split; apply: filter_subseq.
have [sel_ly sel_ry] := sel_y y eq_sz.
exists (filter (goes_left self j) X), (filter (predC (goes_left self j)) X).
exists (mask [seq goes_left self j r | r <- X] y).
exists (mask [seq predC (goes_left self j) r | r <- X] y), li, ri.
split=> //; first exact: apply_split_paired.
by split; rewrite ?filter_subseq ?size_mask_filter.
Qed.

(** C5. Splitting the left subset again.  Applying the same split to the
    left subset it produced returns that subset unchanged as the new left
    subset, and an empty right subset; with a target, the left pair is
    returned unchanged and the right pair is empty. *)
Theorem apply_split_left_idempotent self X :
  in_bounds m (split_feature self) ->
  (exists L R,
     _apply_split (U:=U) self X None = Ok [:: Features L; Features R] /\
     _apply_split (U:=U) self L None = Ok [:: Features L; Features [::]])
  /\
  (forall y : seq U, size y = n_samples X ->
   exists L R Ly Ry,
     _apply_split self X (Some y) = Ok [:: Paired L Ly; Paired R Ry] /\
     _apply_split self L (Some Ly) = Ok [:: Paired L Ly; Paired [::] [::]]).
Proof.
case/axis_index_ok=> j eq_j; rewrite /n_samples.
pose p := goes_left self j.
have all_p : all p (filter p X) by apply: filter_all.
have eq_L : filter p (filter p X) = filter p X by apply/all_filterP.
have eq_R : filter (predC p) (filter p X) = [::].
  rewrite -filter_predI -(filter_pred0 X); apply: eq_filter => r /=.
  exact: andNb.
split=> [|y eq_sz].
  exists (filter p X), (filter (predC p) X).
  by rewrite !(apply_split_features U _ eq_j) eq_L eq_R.
exists (filter p X), (filter (predC p) X).
exists (mask [seq p r | r <- X] y), (mask [seq predC p r | r <- X] y).
rewrite (apply_split_paired eq_j eq_sz); split=> //.
have eq_szL := size_mask_filter p eq_sz.
rewrite (apply_split_paired eq_j eq_szL) eq_L eq_R.
by rewrite map_all_true // map_all_false // mask_true ?eq_szL // mask_false.
Qed.

(** C6. Empty input.  On a matrix with no rows, a split on one of its
    columns returns two empty matrices, and with an empty target two
    pairs of an empty matrix and an empty target; nothing is raised. *)
Theorem apply_split_empty self :
  in_bounds m (split_feature self) ->
  _apply_split (U:=U) self ([::] : ndarray T m) None
  = Ok [:: Features [::]; Features [::]] /\
  _apply_split (U:=U) self ([::] : ndarray T m) (Some [::])
  = Ok [:: Paired [::] [::]; Paired [::] [::]].
Proof.
case/axis_index_ok=> j eq_j.
by rewrite (apply_split_features U _ eq_j) (@apply_split_paired _ _ _ _ _ _ _ _ eq_j).
Qed.

(** C7, as the code has it.  The method checks nothing itself; the
    errors are those of NumPy's indexing.  When [split_feature] is out of
    bounds for the columns of [X], or a target is supplied whose length
    is not the row count of [X] and [X] has at least one row, the call
    raises an IndexError and returns no partition. *)
Theorem apply_split_raises self X (y : option (seq U)) :
  ~~ in_bounds m (split_feature self)
  || (~~ aligned X y && (0 < n_samples X)%N) ->
  exists e, [/\ _apply_split self X y = Raise e, is_IndexError e
              & is_ok (_apply_split self X y) = false].
Proof.
case in_f: (in_bounds m _) => /=; last first.
  move=> _; exists (IndexOutOfBounds (split_feature self) m).
  by rewrite apply_split_out_of_bounds ?in_f.
case: y => // y /andP[ne_sz gt_X].
exists (BooleanIndexMismatch (size y) (size X)).
by rewrite apply_split_misaligned.
Qed.

(** C10. Negative feature indices.  Let [m] be the number of columns
    and [f] the split's feature index.  For [-m <= f <= -1] the call
    raises nothing and partitions on column [m + f]: there is a column
    [j] with [j = m + f], between [0] and [m - 1], such that the left
    subset consists of the rows with [row[j] <= split_threshold] and the
    right subset of the other rows (with the target entries at the same
    positions when [y] is supplied); this is also what the call of the
    split on feature [m + f] returns.  For any feature index, the call
    (on a target of the right length, if any) can only fail when the
    index is [>= m] or [< -m]. *)
Theorem apply_split_negative_feature self X (y : option (seq U)) :
  (- m%:Z <= split_feature self) && (split_feature self <= -1) ->
  aligned X y ->
  [/\ is_ok (_apply_split self X y),
      _apply_split self X y
      = _apply_split
          (MkSplit (m%:Z + split_feature self) (split_threshold self)) X y,
      (0 <= m%:Z + split_feature self) &&
      (m%:Z + split_feature self < m%:Z),
      exists j : 'I_m,
        (nat_of_ord j)%:Z = m%:Z + split_feature self /\
        _apply_split self X y
        = Ok (match y with
              | None =>
                  [:: Features
                        [seq r <- X | (tnth r j <= split_threshold self)%O];
                      Features
                        [seq r <- X | ~~ (tnth r j <= split_threshold self)%O]]
              | Some yv =>
                  [:: Paired
                        [seq r <- X | (tnth r j <= split_threshold self)%O]
                        (mask [seq (tnth r j <= split_threshold self)%O
                              | r <- X] yv);
                      Paired
                        [seq r <- X | ~~ (tnth r j <= split_threshold self)%O]
                        (mask [seq ~~ (tnth r j <= split_threshold self)%O
                              | r <- X] yv)]
              end)
    & forall other : Split T,
        ~~ is_ok (_apply_split other X y) ->
        (m%:Z <= split_feature other) || (split_feature other < - m%:Z)].
Proof.
case: self => f t /= /andP[ge_f le_f] al_y.
have lt_f0 : f < 0 by case: f le_f {ge_f}.
have in_f : in_bounds m f by rewrite /in_bounds ge_f (lt_le_trans lt_f0).
split; first exact: apply_split_ok.
- by rewrite /_apply_split /column /= axis_index_from_end.
- exact: in_bounds_from_end.
- have [j eq_j] := axis_index_ok in_f; exists j.
  split; first by rewrite (axis_index_value eq_j) lt_f0.
  case: y al_y => [yv /eqP eq_sz|_].
    exact: (@apply_split_paired _ _ _ _ (MkSplit f t) X yv j eq_j eq_sz).
  exact: (@apply_split_features _ _ U _ (MkSplit f t) X j eq_j).
move=> other; apply: contraR; rewrite negb_or -ltNge -leNgt andbC => in_f'.
exact: apply_split_ok.
Qed.

End SplitProperties.

(* --------------------------------------------------------------------- *)
(* The store-passing model                                               *)
(* --------------------------------------------------------------------- *)

Section StoreFacts.

Variables (disp : Order.disp_t) (T : porderType disp) (U : Type).
Implicit Types (h : store T U) (l : loc) (ls : seq loc).

Local Notation M := (M T U).
Local Open Scope store_scope.

Lemma extends_refl h : extends h h.
Proof. by exists [::]; rewrite cats0. Qed.

Lemma extends_trans h1 h2 h3 : extends h1 h2 -> extends h2 h3 -> extends h1 h3.
Proof. by move=> [a ->] [b ->]; exists (a ++ b); rewrite catA. Qed.

Lemma extends_rcons h o : extends h (rcons h o).
Proof. by exists [:: o]; rewrite cats1. Qed.

Lemma extends_size h h' : extends h h' -> size h <= size h'.
Proof. by move=> [a ->]; rewrite size_cat leq_addr. Qed.

Lemma extends_load h h' l : extends h h' -> l < size h -> load h' l = load h l.
Proof.
move=> [a ->] lt_l; rewrite /load drop_cat lt_l.
have: 0 < size (drop l h) by rewrite size_drop subn_gt0.
by case: (drop l h).
Qed.

Lemma load_rcons h o : load (rcons h o) (size h) = Some o.
Proof. by rewrite /load -cats1 drop_size_cat. Qed.

Lemma load_some h l o : load h l = Some o -> l < size h.
Proof.
move=> eq_o; rewrite ltnNge; apply/negP=> le_h.
by move: eq_o; rewrite /load drop_oversize.
Qed.

Lemma fresh_in_extends h0 h h' l :
  extends h h' -> fresh_in h0 h l -> fresh_in h0 h' l.
Proof.
move=> /extends_size le_h /andP[le_l lt_l].
by rewrite /fresh_in le_l (leq_trans lt_l).
Qed.

Lemma since_extends h0 ls h h' : extends h h' -> since h0 ls h -> since h0 ls h'.
Proof.
move=> ext [ext0 /allP fresh_ls]; split; first exact: extends_trans ext.
by apply/allP=> l /fresh_ls; apply: fresh_in_extends.
Qed.

Lemma since_new h0 ls h o : since h0 ls h -> since h0 (size h :: ls) (rcons h o).
Proof.
move=> since_h; have [ext0 fresh_ls] := since_extends (extends_rcons h o) since_h.
split=> //=; rewrite fresh_ls andbT /fresh_in size_rcons leqnn andbT.
by case: since_h => /extends_size.
Qed.

(** Rules for [triple]. *)
Lemma triple_bind A B (P : store T U -> Prop) (c : M A) Q (k : A -> M B) R :
  triple P c Q -> (forall a, triple (Q a) (k a) R) -> triple P (bind_st c k) R.
Proof.
move=> triple_c triple_k h /triple_c; rewrite /bind_st.
case: (c h) => [[a|e] h1] /= [ext1 post_c]; last by split.
have [ext2 post_k] := triple_k a h1 (post_c a (erefl _)).
by split=> //; apply: extends_trans ext2.
Qed.

Lemma triple_ret A (P : store T U -> Prop) (a : A) (Q : A -> store T U -> Prop) :
  (forall h, P h -> Q a h) -> triple P (ret a) Q.
Proof. by move=> PQ h /PQ Qa; split=> [|_ [<-]] //; apply: extends_refl. Qed.

Lemma triple_raise A (P : store T U -> Prop) e (Q : A -> store T U -> Prop) :
  triple P (raise e) Q.
Proof. by move=> h _; split=> //; apply: extends_refl. Qed.

Lemma triple_deref (P : store T U -> Prop) l :
  triple P (deref l) (fun _ => P).
Proof.
move=> h Ph; rewrite /deref; case: (load h l) => [o|] /=.
  by split=> //; apply: extends_refl.
by split=> //; apply: extends_refl.
Qed.

Lemma triple_allocating h0 ls (c : M loc) :
  allocating c -> triple (since h0 ls) c (fun l => since h0 (l :: ls)).
Proof.
move=> alloc_c h since_h; case: (alloc_c h) => [[e ->]|[o ->]] /=.
  by split=> //; apply: extends_refl.
by split=> [|_ [<-]]; [apply: extends_rcons | apply: since_new].
Qed.

Lemma allocating_new (o : object T U) : allocating (new o).
Proof. by move=> h; right; exists o. Qed.

Lemma allocating_raise e : allocating (raise (T:=T) (U:=U) e).
Proof. by move=> h; left; exists e. Qed.

Lemma allocating_deref l (k : object T U -> M loc) :
  (forall o, allocating (k o)) -> allocating (do! o <- deref l; k o).
Proof.
move=> alloc_k h; rewrite /bind_st /deref.
by case: (load h l) => [o|]; [apply: alloc_k | left; exists TypeError].
Qed.

Lemma allocating_lift A (r : result A) (k : A -> M loc) :
  (forall a, allocating (k a)) -> allocating (do! a <- lift r; k a).
Proof.
move=> alloc_k h; rewrite /bind_st /lift.
by case: r => [a|e]; [apply: alloc_k | left; exists e].
Qed.

Lemma allocating_getitem_column X f :
  allocating (getitem_column (T:=T) (U:=U) X f).
Proof.
apply: allocating_deref => -[m a|c|b|y|s]; try exact: allocating_raise.
by apply: allocating_lift => c; apply: allocating_new.
Qed.

Lemma allocating_le_st c (t : T) : allocating (le_st (U:=U) c t).
Proof.
apply: allocating_deref => -[m a|v|b|y|s]; try exact: allocating_raise.
exact: allocating_new.
Qed.

Lemma allocating_invert_st b : allocating (invert_st (T:=T) (U:=U) b).
Proof.
apply: allocating_deref => -[m a|c|v|y|s]; try exact: allocating_raise.
exact: allocating_new.
Qed.

Lemma allocating_getitem_bool a b :
  allocating (getitem_bool (T:=T) (U:=U) a b).
Proof.
apply: allocating_deref => oa; apply: allocating_deref => ob.
case: ob => [m' x'|c'|v|y'|s']; try exact: allocating_raise.
case: oa => [m x|x|x|x|s]; try exact: allocating_raise;
  by apply: allocating_lift => r; apply: allocating_new.
Qed.

(** Evaluation of the operations on objects of the expected kind. *)
Lemma load_rcons_old h l o o' :
  load h l = Some o -> load (rcons h o') l = Some o.
Proof.
by move=> eq_o; rewrite (extends_load (extends_rcons h o')) ?(load_some eq_o).
Qed.

Lemma get_split_eval h self s :
  load h self = Some (SplitObj s) -> get_split self h = (Ok s, h).
Proof. by rewrite /get_split /bind_st /deref => ->. Qed.

Lemma getitem_column_eval h X m (a : ndarray T m) f :
  load h X = Some (ArrayObj a) ->
  getitem_column X f h
  = match column a f with
    | Ok c => (Ok (size h), rcons h (ColumnObj c))
    | Raise e => (Raise e, h)
    end.
Proof.
rewrite /getitem_column /bind_st /deref /lift => ->.
by case: (column a f).
Qed.

Lemma le_st_eval h c v (t : T) :
  load h c = Some (ColumnObj v) ->
  le_st c t h = (Ok (size h), rcons h (BoolObj (le_scalar v t))).
Proof. by rewrite /le_st /bind_st /deref => ->. Qed.

Lemma invert_st_eval h b v :
  load h b = Some (BoolObj v) ->
  invert_st b h = (Ok (size h), rcons h (BoolObj (invert v))).
Proof. by rewrite /invert_st /bind_st /deref => ->. Qed.

Lemma getitem_bool_array h X b m (a : ndarray T m) v :
  load h X = Some (ArrayObj a) -> load h b = Some (BoolObj v) ->
  size v = size a ->
  getitem_bool X b h = (Ok (size h), rcons h (ArrayObj (mask v a))).
Proof.
rewrite /getitem_bool /bind_st /deref /lift => -> -> eq_sz.
by rewrite bool_index_ok.
Qed.

Lemma getitem_bool_target h y b (yv : seq U) v :
  load h y = Some (TargetObj yv) -> load h b = Some (BoolObj v) ->
  getitem_bool y b h
  = if (size v == size yv) || (size v == 0)
    then (Ok (size h), rcons h (TargetObj (mask v yv)))
    else (Raise (BooleanIndexMismatch (size yv) (size v)), h).
Proof.
rewrite /getitem_bool /bind_st /deref /lift /bool_index => -> ->.
by case: ifP.
Qed.

(** X11. The two models agree.  In a store where [self] refers to a
    Split object, [X] to a feature matrix and [y] (if given) to a target,
    the store-passing method raises exactly when [_apply_split] raises on
    the contents, with the same exception, and otherwise returns
    references at which the final store holds the subsets [_apply_split]
    computes. *)
Lemma apply_split_st_refines h self X y s m (a : ndarray T m) yv :
  load h self = Some (SplitObj s) -> load h X = Some (ArrayObj a) ->
  target_at h y yv ->
  let res := _apply_split_st self X y h in
  match _apply_split s a yv with
  | Ok outs => exists2 refs, res.1 = Ok refs & subsets_at res.2 refs outs
  | Raise e => res.1 = Raise e
  end.
Proof.
move=> eq_s eq_a eq_y.
rewrite /_apply_split_st /bind_st (get_split_eval eq_s).
rewrite (getitem_column_eval _ eq_a) /_apply_split /column.
case: (axis_index m _) => [j|e] //=.
set c := map _ a; set sf := le_scalar c _.
have sz_sf : size sf = size a by rewrite !size_map.
have sz_nsf : size (invert sf) = size a by rewrite size_invert.
set h1 := rcons h _; rewrite (le_st_eval _ (load_rcons _ _)).
set h2 := rcons h1 _.
have eq_a2 : load h2 X = Some (ArrayObj a) by do 2!apply: load_rcons_old.
have eq_sf2 : load h2 (size h1) = Some (BoolObj sf) by apply: load_rcons.
have eval_left := getitem_bool_array eq_a2 eq_sf2 sz_sf.
set h3 := rcons h2 _ in eval_left.
have eq_a3 : load h3 X = Some (ArrayObj a) by apply: load_rcons_old.
have eq_sf3 : load h3 (size h1) = Some (BoolObj sf) by apply: load_rcons_old.
case: y yv eq_y => [y|] [yv|] //= eq_y;
  rewrite eval_left !(bool_index_ok (a:=a)) //=; last first.
  rewrite (invert_st_eval eq_sf3); set h4 := rcons h3 _.
  have eq_a4 : load h4 X = Some (ArrayObj a) by apply: load_rcons_old.
  have eq_nsf4 : load h4 (size h3) = Some (BoolObj (invert sf)).
    exact: load_rcons.
  rewrite (getitem_bool_array eq_a4 eq_nsf4 sz_nsf) /=.
  eexists; first by [].
  rewrite /= load_rcons; split=> //.
  by do 2!apply: load_rcons_old; apply: load_rcons.
have eq_y3 : load h3 y = Some (TargetObj yv) by do 3!apply: load_rcons_old.
rewrite (getitem_bool_target eq_y3 eq_sf3) /bool_index.
case: ifP => //= ok_y; set h4 := rcons h3 _.
have eq_sf4 : load h4 (size h1) = Some (BoolObj sf) by apply: load_rcons_old.
rewrite (invert_st_eval eq_sf4); set h5 := rcons h4 _.
have eq_a5 : load h5 X = Some (ArrayObj a) by do 2!apply: load_rcons_old.
have eq_nsf5 : load h5 (size h4) = Some (BoolObj (invert sf)).
  exact: load_rcons.
rewrite (getitem_bool_array eq_a5 eq_nsf5 sz_nsf); set h6 := rcons h5 _.
have eq_sf6 : load h6 (size h1) = Some (BoolObj sf).
  by do 2!apply: load_rcons_old.
rewrite (invert_st_eval eq_sf6); set h7 := rcons h6 _.
have eq_y7 : load h7 y = Some (TargetObj yv) by do 4!apply: load_rcons_old.
have eq_nsf7 : load h7 (size h6) = Some (BoolObj (invert sf)).
  exact: load_rcons.
rewrite (getitem_bool_target eq_y7 eq_nsf7) size_invert ok_y /=.
eexists; first by [].
rewrite /= load_rcons; split; last first.
  by split=> //; split=> //; do 2!apply: load_rcons_old; apply: load_rcons.
split; first by do 5!apply: load_rcons_old; apply: load_rcons.
by do 4!apply: load_rcons_old; apply: load_rcons.
Qed.

Lemma triple_get_split (P : store T U -> Prop) self :
  triple P (get_split self) (fun _ => P).
Proof.
rewrite /get_split.
apply: triple_bind (@triple_deref P self) _ => -[m a|c|b|y|s];
  by [apply: triple_raise | apply: triple_ret].
Qed.

(** The locations held by the returned list were all allocated by the
    call. *)
Lemma triple_apply_split_st h0 self X y :
  triple (since h0 [::]) (_apply_split_st self X y)
    (fun out h' => all (fresh_in h0 h') (flatten (map subset_locs out))).
Proof.
rewrite /_apply_split_st.
apply: triple_bind (@triple_get_split _ self) _ => s.
apply: triple_bind (triple_allocating (allocating_getitem_column X _)) _.
move=> c; apply: triple_bind (triple_allocating (allocating_le_st c _)) _.
move=> split_filter; case: y => [y|].
  apply: triple_bind (triple_allocating (allocating_getitem_bool X _)) _.
  move=> left.
  apply: triple_bind (triple_allocating (allocating_getitem_bool y _)) _.
  move=> left_y.
  apply: triple_bind (triple_allocating (allocating_invert_st _)) _.
  move=> not_filter.
  apply: triple_bind (triple_allocating (allocating_getitem_bool X _)) _.
  move=> right.
  apply: triple_bind (triple_allocating (allocating_invert_st _)) _.
  move=> not_filter'.
  apply: triple_bind (triple_allocating (allocating_getitem_bool y _)) _.
  move=> right_y; apply: triple_ret => h [_ /allP fresh_ls] /=.
  by rewrite !fresh_ls // !inE eqxx ?orbT.
apply: triple_bind (triple_allocating (allocating_getitem_bool X _)) _.
move=> left.
apply: triple_bind (triple_allocating (allocating_invert_st _)) _.
move=> not_filter.
apply: triple_bind (triple_allocating (allocating_getitem_bool X _)) _.
move=> right; apply: triple_ret => h [_ /allP fresh_ls] /=.
by rewrite !fresh_ls // !inE eqxx ?orbT.
Qed.

(** C8. No mutation of the arguments.  Whatever [self], [X] and [y] refer
    to, and whether the call returns or raises, every object of the
    initial store, so in particular the arrays [X] and [y] and the Split
    object with its two attributes, is found unchanged at its location
    in the final store; and the arrays held by the returned list are at
    locations that did not exist before the call. *)
Theorem apply_split_st_frame h self X y :
  let res := _apply_split_st self X y h in
  [/\ extends h res.2,
      forall l o, load h l = Some o -> load res.2 l = Some o
    & forall out, res.1 = Ok out ->
        all (fresh_in h res.2) (flatten (map subset_locs out))].
Proof.
have since_h : since h [::] h by split=> //; apply: extends_refl.
have /= [ext_h fresh_out] := triple_apply_split_st self X y since_h.
split=> // l o eq_o.
by rewrite (extends_load ext_h) // (load_some eq_o).
Qed.

End StoreFacts.

(* --------------------------------------------------------------------- *)
(* The scenarios and instances on the sample data                        *)
(* --------------------------------------------------------------------- *)

Section Instances.

Local Open Scope ring_scope.

(** C4. [Split(0, 5)] applied to [[3],[5],[7]] returns [[3],[5]] then
    [[7]]; applied with the target [10,20,30] it returns
    ([[3],[5]], [10,20]) then ([[7]], [30]). *)
Theorem apply_split_scenario :
  _apply_split (U:=int) split_0_5 X_357 None
  = Ok [:: Features [:: [tuple 3%Z]; [tuple 5%Z]];
           Features [:: [tuple 7%Z]]] /\
  _apply_split split_0_5 X_357 (Some y_357)
  = Ok [:: Paired [:: [tuple 3%Z]; [tuple 5%Z]] [:: 10%Z; 20%Z];
           Paired [:: [tuple 7%Z]] [:: 30%Z]].
Proof. by split. Qed.

(** Further runs of the model: a split on the last column addressed as
    [-1], an index no column has, a target of the wrong length, and the
    call over a store. *)
Example apply_split_last_column :
  _apply_split split_last_3 X_two_columns (Some y_two_columns)
  = Ok [:: Paired [:: [tuple 4%Z; 2%Z]; [tuple 0%Z; 3%Z]; [tuple 4%Z; 2%Z]]
                  [:: 12%Z; 13%Z; 14%Z];
           Paired [:: [tuple 1%Z; 9%Z]] [:: 11%Z]].
Proof. by []. Qed.

Example apply_split_no_such_column :
  _apply_split (U:=int) split_5_0 X_357 None
  = Raise (IndexOutOfBounds 5%Z 1).
Proof. by []. Qed.

Example apply_split_short_target :
  _apply_split split_last_3 X_two_columns (Some y_357)
  = Raise (BooleanIndexMismatch 3 4).
Proof. by []. Qed.

Example apply_split_st_scenario :
  let res := _apply_split_st 0 1 (Some 2) store_357 in
  [/\ res.1 = Ok [:: PairedRef 5 6; PairedRef 8 10],
      take 3 res.2 = store_357,
      load res.2 5 = Some (ArrayObj [:: [tuple 3%Z]; [tuple 5%Z]]) /\
      load res.2 6 = Some (TargetObj [:: 10%Z; 20%Z])
    & load res.2 8 = Some (ArrayObj [:: [tuple 7%Z]]) /\
      load res.2 10 = Some (TargetObj [:: 30%Z])].
Proof. by []. Qed.

Lemma apply_split_partition_complete_witness :
  in_bounds 1 (split_feature split_0_5) /\
  exists L R,
    _apply_split (U:=int) split_0_5 X_357 None
    = Ok [:: Features L; Features R] /\
    (n_samples L + n_samples R)%N = 3%N.
Proof.
have in_f : in_bounds 1 (split_feature split_0_5) by vm_compute.
split; first exact: in_f.
have [[L [R [li [ri [eq_out eq_n _ _ _]]]]] _] :=
  apply_split_partition_complete int X_357 in_f.
by exists L, R.
Defined.

Lemma apply_split_tie_goes_left_witness :
  exists j : 'I_1,
    [/\ axis_index 1 (split_feature split_0_5) = Ok j,
        aligned X_357 (Some y_357)
      & exists left right,
          _apply_split split_0_5 X_357 (Some y_357) = Ok [:: left; right] /\
          count_mem [tuple 5%Z] (subset_features left) = 1%N /\
          [tuple 5%Z] \notin subset_features right].
Proof.
pose j : 'I_1 := @Ordinal 1 0 (erefl true).
have eq_j : axis_index 1 (split_feature split_0_5) = Ok j by vm_compute.
have al_y : aligned X_357 (Some y_357) by vm_compute.
exists j; split; [exact: eq_j | exact: al_y |].
have [left [right [li [ri [eq_out _ _ tie]]]]] :=
  apply_split_tie_goes_left eq_j al_y.
have [eq_count not_right] := tie [tuple 5%Z] (erefl _).
by exists left, right; rewrite eq_count.
Defined.

Lemma apply_split_stable_witness :
  in_bounds 2 (split_feature split_last_3) /\
  size y_two_columns = n_samples X_two_columns /\
  exists L R Ly Ry,
    [/\ _apply_split split_last_3 X_two_columns (Some y_two_columns)
        = Ok [:: Paired L Ly; Paired R Ry],
        subseq L X_two_columns, subseq R X_two_columns,
        size Ly = n_samples L & size Ry = n_samples R].
Proof.
have in_f : in_bounds 2 (split_feature split_last_3) by vm_compute.
have eq_sz : size y_two_columns = n_samples X_two_columns by vm_compute.
split; first exact: in_f.
split; first exact: eq_sz.
have [_ /(_ y_two_columns eq_sz)] := apply_split_stable int X_two_columns in_f.
move=> [L [R [Ly [Ry [li [ri [eq_out _ _ _ [sub_L sub_R sz_Ly sz_Ry]]]]]]]].
by exists L, R, Ly, Ry.
Defined.

Lemma apply_split_left_idempotent_witness :
  in_bounds 2 (split_feature split_last_3) /\
  exists L R,
    _apply_split (U:=int) split_last_3 X_two_columns None
    = Ok [:: Features L; Features R] /\
    _apply_split (U:=int) split_last_3 L None
    = Ok [:: Features L; Features [::]].
Proof.
have in_f : in_bounds 2 (split_feature split_last_3) by vm_compute.
split; first exact: in_f.
by have [] := apply_split_left_idempotent int X_two_columns in_f.
Defined.

Lemma apply_split_empty_witness :
  in_bounds 2 (split_feature split_last_3) /\
  _apply_split (U:=int) split_last_3 ([::] : ndarray int 2) None
  = Ok [:: Features [::]; Features [::]] /\
  _apply_split (U:=int) split_last_3 ([::] : ndarray int 2) (Some [::])
  = Ok [:: Paired [::] [::]; Paired [::] [::]].
Proof.
have in_f : in_bounds 2 (split_feature split_last_3) by vm_compute.
split; first exact: in_f.
exact: (@apply_split_empty _ _ int 2 split_last_3 in_f).
Defined.

Lemma apply_split_raises_witness :
  ~~ in_bounds 1 (split_feature split_5_0)
  || (~~ aligned X_357 (Some y_357) && (0 < n_samples X_357)%N) /\
  ~~ in_bounds 1 (split_feature split_0_5)
  || (~~ aligned X_357 (Some y_two_columns) && (0 < n_samples X_357)%N) /\
  (exists e, _apply_split split_5_0 X_357 (Some y_357) = Raise e) /\
  (exists e, _apply_split split_0_5 X_357 (Some y_two_columns) = Raise e).
Proof.
have bad_f :
  ~~ in_bounds 1 (split_feature split_5_0)
  || (~~ aligned X_357 (Some y_357) && (0 < n_samples X_357)%N).
  by vm_compute.
have bad_y :
  ~~ in_bounds 1 (split_feature split_0_5)
  || (~~ aligned X_357 (Some y_two_columns) && (0 < n_samples X_357)%N).
  by vm_compute.
split; first exact: bad_f.
split; first exact: bad_y.
have [e1 [eq_e1 _ _]] := apply_split_raises bad_f.
have [e2 [eq_e2 _ _]] := apply_split_raises bad_y.
by split; [exists e1 | exists e2].
Defined.

(** C7 fails as stated: on a matrix without rows, a target with three
    entries does not match the row count, and yet the call raises
    nothing and returns two empty pairs. *)
Lemma apply_split_zero_rows_no_raise :
  ~~ aligned ([::] : ndarray int 1) (Some y_357) /\
  _apply_split split_0_5 ([::] : ndarray int 1) (Some y_357)
  = Ok [:: Paired [::] [::]; Paired [::] [::]].
Proof. by []. Qed.

Lemma apply_split_negative_feature_witness :
  (- 2%:Z <= split_feature split_last_3)
  && (split_feature split_last_3 <= -1) /\
  aligned X_two_columns (Some y_two_columns) /\
  _apply_split split_last_3 X_two_columns (Some y_two_columns)
  = _apply_split (MkSplit 1%Z 3%Z) X_two_columns (Some y_two_columns).
Proof.
have in_f : (- 2%:Z <= split_feature split_last_3)
            && (split_feature split_last_3 <= -1) by vm_compute.
have al_y : aligned X_two_columns (Some y_two_columns) by vm_compute.
split; first exact: in_f.
split; first exact: al_y.
by have [_ -> _ _ _] := apply_split_negative_feature in_f al_y.
Defined.

End Instances.

(* --------------------------------------------------------------------- *)
(* The node constructor                                                  *)
(* --------------------------------------------------------------------- *)

Section TreeProperties.

Variables (E S : Type).
Implicit Types (t : TreeNode E S) (c : option (seq (TreeNode E S))).

(** C9, as the code has it.  The constructor stores [children] as it
    receives it and checks nothing: the attribute is the argument (None
    by default), so the constructed node has the binary shape exactly
    when the argument is None or a list of two nodes of that shape. *)
Theorem init_keeps_children d (e : option E) c (s : option S) :
  [/\ children (__init__ d e c s) = c,
      binary_shape (__init__ d e c s)
      = (if c is Some cs then (size cs == 2) && all (@binary_shape E S) cs
         else true)
    & children (default_node E S) = None].
Proof. by []. Qed.

(** A node built over two leaves has the binary shape. *)
Lemma init_two_leaves_shape d (e : option E) (s : option S) :
  binary_shape (__init__ d e (Some [:: default_node E S; default_node E S]) s).
Proof. by []. Qed.

End TreeProperties.

(** C9 fails as stated: a node constructed with a list of one child holds
    a non-empty collection that is not a pair. *)
Lemma init_one_child_not_pair :
  children one_child_node = Some [:: leaf] /\
  (size [:: leaf] == 2) = false /\
  binary_shape one_child_node = false.
Proof. by []. Qed.

(* --------------------------------------------------------------------- *)
(* Further laws of the split operator                                    *)
(* --------------------------------------------------------------------- *)

Section SplitLaws.

Variables (disp : Order.disp_t) (T : porderType disp) (U : Type) (m : nat).
Implicit Types (self : Split T) (X : ndarray T m) (j : 'I_m).

Lemma map_none_false A (p : pred A) (s : seq A) :
  all (predC p) s -> [seq p x | x <- s] = nseq (size s) false.
Proof. by elim: s => //= x s IHs /andP[/negbTE -> /IHs ->]. Qed.

Lemma map_none_true A (p : pred A) (s : seq A) :
  all (predC p) s -> [seq predC p x | x <- s] = nseq (size s) true.
Proof. by elim: s => //= x s IHs /andP[-> /IHs ->]. Qed.

(** X1. Outcome of a call.  The call returns exactly when the feature
    index is within the bounds of the columns and the target, if any, has
    one entry per row or [X] has no rows.  The feature index is checked
    first: when it is out of bounds the call raises the out-of-bounds
    IndexError carrying the index and the number of columns, whatever [y]
    is.  Otherwise, on a matrix with at least one row, a target of the
    wrong length raises the boolean-index IndexError carrying the length
    of [y] and the number of rows; on a matrix without rows a target of
    any length is accepted and two empty pairs are returned. *)
Theorem apply_split_outcome self X (y : option (seq U)) :
  [/\ is_ok (_apply_split self X y)
      = in_bounds m (split_feature self)
        && (aligned X y || (n_samples X == 0)%N),
      ~~ in_bounds m (split_feature self) ->
      _apply_split self X y
      = Raise (IndexOutOfBounds (split_feature self) m),
      in_bounds m (split_feature self) -> ~~ aligned X y ->
      (0 < n_samples X)%N ->
      exists2 yv, y = Some yv
      & _apply_split self X y
        = Raise (BooleanIndexMismatch (size yv) (n_samples X))
    & in_bounds m (split_feature self) -> n_samples X = 0%N ->
      forall yv : seq U,
        _apply_split self X (Some yv)
        = Ok [:: Paired [::] [::]; Paired [::] [::]]].
Proof.
split.
- case in_f: (in_bounds m _); last by rewrite apply_split_out_of_bounds ?in_f.
  case al_y: (aligned X y); first by rewrite apply_split_ok.
  case: y al_y => // yv /negbT ne_sz /=; rewrite /n_samples.
  case: X ne_sz => [|r X] ne_sz; first by rewrite apply_split_zero_rows.
  by rewrite apply_split_misaligned.
- exact: apply_split_out_of_bounds.
- move=> in_f; case: y => // yv ne_sz gt_X; exists yv => //.
  exact: apply_split_misaligned.
by move=> in_f /size0nil -> yv; apply: apply_split_zero_rows.
Qed.

(** X2. The routing rule.  Let [j] be the column selected by
    [split_feature].  Position [i] of [X] is among the positions that
    make up the left subset exactly when [X[i, j] <= split_threshold],
    and among those of the right subset exactly when not.  So every row
    of the left subset passes the test and no row of the right subset
    does. *)
Theorem apply_split_routing self X (y : option (seq U)) j :
  axis_index m (split_feature self) = Ok j -> aligned X y ->
  exists left right li ri,
    [/\ _apply_split self X y = Ok [:: left; right],
        selects li X (subset_features left) /\
        selects ri X (subset_features right),
        forall i r0, i < n_samples X ->
          (i \in li) = (tnth (nth r0 X i) j <= split_threshold self)%O /\
          (i \in ri) = ~~ (tnth (nth r0 X i) j <= split_threshold self)%O
      & all (fun r => tnth r j <= split_threshold self)%O
            (subset_features left) /\
        all (fun r => ~~ (tnth r j <= split_threshold self)%O)
            (subset_features right)].
Proof.
move=> eq_j al_y; pose p := goes_left self j.
have [_ _ [sel_l sel_r] _] := split_positions U p X.
have route i r0 : i < n_samples X ->
    (i \in left_positions p X) = p (nth r0 X i) /\
    (i \in right_positions p X) = ~~ p (nth r0 X i).
  exact: mem_positions.
have all_lr : all p (filter p X) /\ all (predC p) (filter (predC p) X).
  by split; apply: filter_all.
case: y al_y => [y /eqP eq_sz|_].
  rewrite (apply_split_paired eq_j eq_sz).
  by do 2!eexists; exists (left_positions p X), (right_positions p X); split.
rewrite (apply_split_features U X eq_j).
by do 2!eexists; exists (left_positions p X), (right_positions p X); split.
Qed.

(** X3. One-sided splits.  When every row passes the test, the left
    subset is the whole input and the right subset is empty; when no row
    passes it, the left subset is empty and the right subset is the
    whole input.  With a target, the target goes with the rows. *)
Theorem apply_split_one_sided self X j :
  axis_index m (split_feature self) = Ok j ->
  (all (fun r => tnth r j <= split_threshold self)%O X ->
   _apply_split (U:=U) self X None = Ok [:: Features X; Features [::]] /\
   forall y : seq U, size y = n_samples X ->
     _apply_split self X (Some y) = Ok [:: Paired X y; Paired [::] [::]])
  /\
  (all (fun r => ~~ (tnth r j <= split_threshold self)%O) X ->
   _apply_split (U:=U) self X None = Ok [:: Features [::]; Features X] /\
   forall y : seq U, size y = n_samples X ->
     _apply_split self X (Some y) = Ok [:: Paired [::] [::]; Paired X y]).
Proof.
move=> eq_j; pose p := goes_left self j; split=> [all_p|none_p].
  have eq_L : filter p X = X by apply/all_filterP.
  have eq_R : filter (predC p) X = [::].
    rewrite -(filter_pred0 X); apply/eq_in_filter=> r /(allP all_p) left_r.
    by rewrite /= /p /goes_left left_r.
  split=> [|y eq_sz]; first by rewrite (apply_split_features U X eq_j) eq_L eq_R.
  rewrite (apply_split_paired eq_j eq_sz) eq_L eq_R.
  by rewrite map_all_true // map_all_false // mask_true ?eq_sz // mask_false.
have eq_R : filter (predC p) X = X by apply/all_filterP.
have eq_L : filter p X = [::].
  rewrite -(filter_pred0 X); apply/eq_in_filter=> r /(allP none_p) /negbTE.
  by rewrite /= /p /goes_left => ->.
split=> [|y eq_sz]; first by rewrite (apply_split_features U X eq_j) eq_L eq_R.
rewrite (apply_split_paired eq_j eq_sz) eq_L eq_R.
by rewrite map_none_true // map_none_false // mask_true ?eq_sz // mask_false.
Qed.

Lemma filterC A (a b : pred A) (s : seq A) :
  filter a (filter b s) = filter b (filter a s).
Proof. by rewrite -!filter_predI; apply: eq_filter => x /=; rewrite andbC. Qed.

Lemma filter_all_left (A : eqType) (p : pred A) (s : seq A) :
  all p s -> filter p s = s /\ filter (predC p) s = [::].
Proof.
move=> all_p; split; first exact/all_filterP.
rewrite -(filter_pred0 s); apply/eq_in_filter=> x /(allP all_p) /= left_x.
by rewrite left_x.
Qed.

Lemma filter_none_left (A : eqType) (p : pred A) (s : seq A) :
  all (predC p) s -> filter p s = [::] /\ filter (predC p) s = s.
Proof.
move=> none_p; split; last exact/all_filterP.
rewrite -(filter_pred0 s); apply/eq_in_filter=> x /(allP none_p) /=.
exact: negbTE.
Qed.

Lemma column_size X f c : column X f = Ok c -> size c = size X.
Proof.
by rewrite /column; case: (axis_index m f) => //= j [<-]; rewrite size_map.
Qed.

(** X4. Splitting the right subset again.  Applying the same split to
    the right subset it produced returns an empty left subset and that
    right subset unchanged; with a target, the right pair is returned
    unchanged and the left pair is empty. *)
Theorem apply_split_right_idempotent self X :
  in_bounds m (split_feature self) ->
  (exists L R,
     _apply_split (U:=U) self X None = Ok [:: Features L; Features R] /\
     _apply_split (U:=U) self R None = Ok [:: Features [::]; Features R])
  /\
  (forall y : seq U, size y = n_samples X ->
   exists L R Ly Ry,
     _apply_split self X (Some y) = Ok [:: Paired L Ly; Paired R Ry] /\
     _apply_split self R (Some Ry) = Ok [:: Paired [::] [::]; Paired R Ry]).
Proof.
case/axis_index_ok=> j eq_j; rewrite /n_samples.
pose p := goes_left self j.
have none_p : all (predC p) (filter (predC p) X) by apply: filter_all.
have [eq_L eq_R] := filter_none_left none_p.
split=> [|y eq_sz].
  exists (filter p X), (filter (predC p) X).
  by rewrite !(apply_split_features U _ eq_j) eq_L eq_R.
exists (filter p X), (filter (predC p) X).
exists (mask [seq p r | r <- X] y), (mask [seq predC p r | r <- X] y).
rewrite (apply_split_paired eq_j eq_sz); split=> //.
have eq_szR := size_mask_filter (predC p) eq_sz.
rewrite (apply_split_paired eq_j eq_szR) eq_L eq_R.
rewrite (map_none_true none_p) (map_none_false none_p).
by rewrite mask_true ?eq_szR // mask_false.
Qed.

(** X5. The target does not influence the features.  The feature
    matrices returned with a target are the ones returned without it:
    a sample is routed the same way whether the call is made with [y]
    or with [X] alone. *)
Theorem apply_split_features_ignore_target self X (y : seq U) :
  in_bounds m (split_feature self) -> size y = n_samples X ->
  exists L R Ly Ry,
    _apply_split (U:=U) self X None = Ok [:: Features L; Features R] /\
    _apply_split self X (Some y) = Ok [:: Paired L Ly; Paired R Ry].
Proof.
case/axis_index_ok=> j eq_j eq_sz.
rewrite (apply_split_features U X eq_j) (apply_split_paired eq_j eq_sz).
by do 4!eexists.
Qed.

(** X6. Splitting in batches.  Splitting the concatenation of two
    sample sets gives, on each side, the concatenation of what splitting
    each set gives on that side; likewise for the targets. *)
Theorem apply_split_cat self X1 X2 :
  in_bounds m (split_feature self) ->
  (exists L1 R1 L2 R2,
     [/\ _apply_split (U:=U) self X1 None = Ok [:: Features L1; Features R1],
         _apply_split (U:=U) self X2 None = Ok [:: Features L2; Features R2]
       & _apply_split (U:=U) self (X1 ++ X2) None
         = Ok [:: Features (L1 ++ L2); Features (R1 ++ R2)]])
  /\
  (forall y1 y2 : seq U,
     size y1 = n_samples X1 -> size y2 = n_samples X2 ->
   exists L1 R1 L2 R2 Ly1 Ry1 Ly2 Ry2,
     [/\ _apply_split self X1 (Some y1) = Ok [:: Paired L1 Ly1; Paired R1 Ry1],
         _apply_split self X2 (Some y2) = Ok [:: Paired L2 Ly2; Paired R2 Ry2]
       & _apply_split self (X1 ++ X2) (Some (y1 ++ y2))
         = Ok [:: Paired (L1 ++ L2) (Ly1 ++ Ly2);
                  Paired (R1 ++ R2) (Ry1 ++ Ry2)]]).
Proof.
case/axis_index_ok=> j eq_j; rewrite /n_samples; split=> [|y1 y2 eq_sz1 eq_sz2].
  rewrite !(apply_split_features U _ eq_j) !filter_cat.
  by do 4!eexists; split.
have eq_sz : size (y1 ++ y2) = size (X1 ++ X2) by rewrite !size_cat eq_sz1 eq_sz2.
rewrite (apply_split_paired eq_j eq_sz1) (apply_split_paired eq_j eq_sz2).
rewrite (apply_split_paired eq_j eq_sz) !filter_cat !map_cat.
rewrite !mask_cat ?size_map //.
by do 8!eexists; split.
Qed.

(** X7. Raising the threshold.  For two splits on the same column with
    thresholds [t1 <= t2]: every row sent left at [t1] is sent left at
    [t2], and every row sent right at [t2] is sent right at [t1].  So
    the left subset at [t1] is a subsequence of the left subset at
    [t2], and the right subset at [t2] one of the right subset at
    [t1]. *)
Theorem apply_split_threshold_mono (s1 s2 : Split T) X j :
  axis_index m (split_feature s1) = Ok j ->
  axis_index m (split_feature s2) = Ok j ->
  (split_threshold s1 <= split_threshold s2)%O ->
  exists L1 R1 L2 R2,
    [/\ _apply_split (U:=U) s1 X None = Ok [:: Features L1; Features R1],
        _apply_split (U:=U) s2 X None = Ok [:: Features L2; Features R2],
        _apply_split (U:=U) s2 L1 None = Ok [:: Features L1; Features [::]],
        _apply_split (U:=U) s1 R2 None = Ok [:: Features [::]; Features R2]
      & subseq L1 L2 /\ subseq R2 R1].
Proof.
move=> eq_j1 eq_j2 le_t; pose p1 := goes_left s1 j; pose p2 := goes_left s2 j.
have p12 r : p1 r -> p2 r by move=> /le_trans; apply.
have all_p2 : all p2 (filter p1 X).
  by apply/allP=> r; rewrite mem_filter => /andP[/p12].
have none_p1 : all (predC p1) (filter (predC p2) X).
  apply/allP=> r; rewrite mem_filter => /andP[/= not_p2 _].
  by apply: contra not_p2; apply: p12.
have [eq_LL eq_LR] := filter_all_left all_p2.
have [eq_RL eq_RR] := filter_none_left none_p1.
exists (filter p1 X), (filter (predC p1) X).
exists (filter p2 X), (filter (predC p2) X).
rewrite (apply_split_features U _ eq_j1) (apply_split_features U _ eq_j2).
rewrite (apply_split_features U _ eq_j2) (apply_split_features U _ eq_j1).
rewrite eq_LL eq_LR eq_RL eq_RR; split=> //.
by rewrite !subseq_filter all_p2 none_p1 !filter_subseq.
Qed.

(** X8. Two splits commute.  Splitting by [s1] and then each part by
    [s2] produces the same four sample sets as splitting by [s2] and
    then each part by [s1]: the rows on side [a] of [s1] and side [b] of
    [s2] do not depend on the order of the two splits. *)
Theorem apply_split_commute (s1 s2 : Split T) X :
  in_bounds m (split_feature s1) -> in_bounds m (split_feature s2) ->
  exists L1 R1 L2 R2 LL LR RL RR,
    [/\ _apply_split (U:=U) s1 X None = Ok [:: Features L1; Features R1] /\
        _apply_split (U:=U) s2 X None = Ok [:: Features L2; Features R2],
        _apply_split (U:=U) s2 L1 None = Ok [:: Features LL; Features LR],
        _apply_split (U:=U) s2 R1 None = Ok [:: Features RL; Features RR],
        _apply_split (U:=U) s1 L2 None = Ok [:: Features LL; Features RL]
      & _apply_split (U:=U) s1 R2 None = Ok [:: Features LR; Features RR]].
Proof.
case/axis_index_ok=> j1 eq_j1 /axis_index_ok[j2 eq_j2].
pose p1 := goes_left s1 j1; pose p2 := goes_left s2 j2.
exists (filter p1 X), (filter (predC p1) X).
exists (filter p2 X), (filter (predC p2) X).
exists (filter p2 (filter p1 X)), (filter (predC p2) (filter p1 X)).
exists (filter p2 (filter (predC p1) X)).
exists (filter (predC p2) (filter (predC p1) X)).
rewrite !(apply_split_features U _ eq_j1) !(apply_split_features U _ eq_j2).
by split=> //; rewrite -/p1 -/p2 (filterC p1) (filterC (predC p1)).
Qed.

End SplitLaws.

Section SplitColumn.

Variables (disp : Order.disp_t) (T : porderType disp) (U : Type).
Variables (m m' : nat).

(** X9. Only the split column matters.  Two matrices, possibly of
    different widths, whose split columns hold the same values are
    split alike by splits with the same threshold: the same positions go
    left, so a target is divided into the same two parts. *)
Theorem apply_split_column_only (s s' : Split T)
    (X : ndarray T m) (X' : ndarray T m') (y : seq U) c :
  column X (split_feature s) = Ok c ->
  column X' (split_feature s') = Ok c ->
  split_threshold s = split_threshold s' ->
  size y = n_samples X ->
  exists L R L' R' Ly Ry,
    [/\ _apply_split s X (Some y) = Ok [:: Paired L Ly; Paired R Ry],
        _apply_split s' X' (Some y) = Ok [:: Paired L' Ly; Paired R' Ry],
        n_samples L' = n_samples L & n_samples R' = n_samples R].
Proof.
move=> eq_c eq_c' eq_t eq_sz; rewrite /n_samples in eq_sz *.
rewrite /_apply_split eq_c eq_c' -eq_t /=.
set sf := le_scalar c _.
have sz_X : size sf = size X by rewrite size_map (column_size eq_c).
have sz_X' : size sf = size X' by rewrite size_map (column_size eq_c').
have sz_y : size sf = size y by rewrite eq_sz.
have nsz_X : size (invert sf) = size X by rewrite size_invert.
have nsz_X' : size (invert sf) = size X' by rewrite size_invert.
have nsz_y : size (invert sf) = size y by rewrite size_invert.
rewrite (bool_index_ok sz_X) (bool_index_ok sz_X') (bool_index_ok sz_y) /=.
rewrite (bool_index_ok nsz_X) (bool_index_ok nsz_X') (bool_index_ok nsz_y) /=.
by do 6!eexists; split=> //; rewrite !size_mask.
Qed.

End SplitColumn.

(* --------------------------------------------------------------------- *)
(* Further laws of the store-passing model                               *)
(* --------------------------------------------------------------------- *)

Section StoreLaws.

Variables (disp : Order.disp_t) (T : porderType disp) (U : Type).
Implicit Types (h : store T U) (l : loc) (ls : seq loc).

Local Notation M := (M T U).

(** Allocation returns locations in increasing order. *)
Lemma triple_allocating_sorted h0 ls (c : M loc) :
  allocating c ->
  triple (fun h => since h0 ls h /\ sorted gtn ls) c
    (fun l h' => since h0 (l :: ls) h' /\ sorted gtn (l :: ls)).
Proof.
move=> alloc_c h [since_h sorted_ls].
case: (alloc_c h) => [[e ->]|[o ->]] /=; first by split=> //; apply: extends_refl.
split=> [|_ [<-]]; first exact: extends_rcons.
split; first exact: since_new.
case: ls since_h sorted_ls => [|l ls] //= [_ /= /andP[/andP[_ lt_l] _]] path_ls.
by rewrite /gtn /= lt_l.
Qed.

Lemma triple_apply_split_st_sorted h0 self X y :
  triple (fun h => since h0 [::] h /\ sorted gtn [::])
    (_apply_split_st self X y)
    (fun out _ => sorted ltn (flatten (map subset_locs out))).
Proof.
have pick (bits : bitseq) ls : sorted gtn ls -> sorted ltn (mask bits (rev ls)).
  by move=> sorted_ls; apply: sorted_mask ltn_trans _ _ _; rewrite rev_sorted.
rewrite /_apply_split_st.
apply: triple_bind (@triple_get_split _ _ _ _ self) _ => s.
apply: triple_bind
  (triple_allocating_sorted (allocating_getitem_column X _)) _ => c.
apply: triple_bind
  (triple_allocating_sorted (allocating_le_st c _)) _ => split_filter.
case: y => [y|].
  apply: triple_bind
    (triple_allocating_sorted (allocating_getitem_bool X _)) _ => left.
  apply: triple_bind
    (triple_allocating_sorted (allocating_getitem_bool y _)) _ => left_y.
  apply: triple_bind
    (triple_allocating_sorted (allocating_invert_st _)) _ => not_filter.
  apply: triple_bind
    (triple_allocating_sorted (allocating_getitem_bool X _)) _ => right.
  apply: triple_bind
    (triple_allocating_sorted (allocating_invert_st _)) _ => not_filter'.
  apply: triple_bind
    (triple_allocating_sorted (allocating_getitem_bool y _)) _ => right_y.
  apply: triple_ret => h [_ sorted_ls].
  exact: (pick [:: false; false; true; true; false; true; false; true] _
            sorted_ls).
apply: triple_bind
  (triple_allocating_sorted (allocating_getitem_bool X _)) _ => left.
apply: triple_bind
  (triple_allocating_sorted (allocating_invert_st _)) _ => not_filter.
apply: triple_bind
  (triple_allocating_sorted (allocating_getitem_bool X _)) _ => right.
apply: triple_ret => h [_ sorted_ls].
exact: (pick [:: false; false; true; false; true] _ sorted_ls).
Qed.

(** X10. The returned arrays are separate objects.  When the call
    returns, the locations held by the returned list (left features,
    left target, right features, right target, in this order) are
    strictly increasing, hence pairwise distinct: no two of the returned
    arrays are the same object, even when they have the same contents. *)
Theorem apply_split_st_distinct h self X y out :
  (_apply_split_st self X y h).1 = Ok out ->
  sorted ltn (flatten (map subset_locs out)) /\
  uniq (flatten (map subset_locs out)).
Proof.
move=> eq_out.
have since_h : since h [::] h /\ sorted gtn [::].
  by do 2!split=> //; apply: extends_refl.
have [_ /(_ out eq_out) sorted_out] :=
  triple_apply_split_st_sorted self X y since_h.
by split=> //; apply: sorted_uniq sorted_out; [apply: ltn_trans | apply: ltnn].
Qed.

End StoreLaws.

(* --------------------------------------------------------------------- *)
(* Instances of the further laws on the sample data                      *)
(* --------------------------------------------------------------------- *)

Section LawInstances.

Local Open Scope ring_scope.

Lemma apply_split_outcome_witness :
  ~~ in_bounds 1 (split_feature split_5_0) /\
  ~~ aligned X_357 (Some y_two_columns) /\
  (0 < n_samples X_357)%N /\
  _apply_split split_5_0 X_357 (Some y_two_columns)
  = Raise (IndexOutOfBounds 5%Z 1) /\
  _apply_split split_0_5 X_357 (Some y_two_columns)
  = Raise (BooleanIndexMismatch 4 3) /\
  _apply_split split_0_5 ([::] : ndarray int 1) (Some y_two_columns)
  = Ok [:: Paired [::] [::]; Paired [::] [::]].
Proof.
have bad_f : ~~ in_bounds 1 (split_feature split_5_0) by vm_compute.
have in_f : in_bounds 1 (split_feature split_0_5) by vm_compute.
have bad_y : ~~ aligned X_357 (Some y_two_columns) by vm_compute.
have gt_X : (0 < n_samples X_357)%N by vm_compute.
split; first exact: bad_f.
split; first exact: bad_y.
split; first exact: gt_X.
have [_ raise_f _ _] :=
  apply_split_outcome split_5_0 X_357 (Some y_two_columns).
have [_ _ raise_y _] :=
  apply_split_outcome split_0_5 X_357 (Some y_two_columns).
have [_ _ _ accept] :=
  apply_split_outcome split_0_5 ([::] : ndarray int 1) (@None (seq int)).
split; first exact: raise_f bad_f.
split; first by have [yv [<-]] := raise_y in_f bad_y gt_X.
exact: accept in_f (erefl _) y_two_columns.
Defined.

Lemma apply_split_routing_witness :
  exists j : 'I_1,
    [/\ axis_index 1 (split_feature split_0_5) = Ok j,
        aligned X_357 (Some y_357)
      & exists left right,
          _apply_split split_0_5 X_357 (Some y_357) = Ok [:: left; right] /\
          all (fun r => tnth r j <= 5%Z) (subset_features left) /\
          all (fun r => ~~ (tnth r j <= 5%Z)) (subset_features right)].
Proof.
pose j : 'I_1 := @Ordinal 1 0 (erefl true).
have eq_j : axis_index 1 (split_feature split_0_5) = Ok j by vm_compute.
have al_y : aligned X_357 (Some y_357) by vm_compute.
exists j; split; [exact: eq_j | exact: al_y |].
have [left [right [li [ri [eq_out _ _ all_lr]]]]] :=
  apply_split_routing eq_j al_y.
by exists left, right.
Defined.

Lemma apply_split_one_sided_witness :
  exists j : 'I_1,
    [/\ axis_index 1 (split_feature split_0_7) = Ok j,
        all (fun r => tnth r j <= split_threshold split_0_7) X_357
      & _apply_split (U:=int) split_0_7 X_357 None
        = Ok [:: Features X_357; Features [::]]].
Proof.
pose j : 'I_1 := @Ordinal 1 0 (erefl true).
have eq_j : axis_index 1 (split_feature split_0_7) = Ok j by vm_compute.
have all_left : all (fun r => tnth r j <= split_threshold split_0_7) X_357.
  by vm_compute.
exists j; split; [exact: eq_j | exact: all_left |].
have [all_case _] := apply_split_one_sided int X_357 eq_j.
by have [] := all_case all_left.
Defined.

Lemma apply_split_right_idempotent_witness :
  in_bounds 2 (split_feature split_last_3) /\
  exists L R,
    _apply_split (U:=int) split_last_3 X_two_columns None
    = Ok [:: Features L; Features R] /\
    _apply_split (U:=int) split_last_3 R None
    = Ok [:: Features [::]; Features R].
Proof.
have in_f : in_bounds 2 (split_feature split_last_3) by vm_compute.
split; first exact: in_f.
by have [] := apply_split_right_idempotent int X_two_columns in_f.
Defined.

Lemma apply_split_features_ignore_target_witness :
  in_bounds 1 (split_feature split_0_5) /\
  size y_357 = n_samples X_357 /\
  exists L R Ly Ry,
    _apply_split (U:=int) split_0_5 X_357 None
    = Ok [:: Features L; Features R] /\
    _apply_split split_0_5 X_357 (Some y_357)
    = Ok [:: Paired L Ly; Paired R Ry].
Proof.
have in_f : in_bounds 1 (split_feature split_0_5) by vm_compute.
have eq_sz : size y_357 = n_samples X_357 by vm_compute.
split; first exact: in_f.
split; first exact: eq_sz.
exact: apply_split_features_ignore_target in_f eq_sz.
Defined.

Lemma apply_split_cat_witness :
  in_bounds 1 (split_feature split_0_5) /\
  exists L R,
    _apply_split (U:=int) split_0_5 X_357 None
    = Ok [:: Features L; Features R] /\
    _apply_split (U:=int) split_0_5 (X_357 ++ X_357) None
    = Ok [:: Features (L ++ L); Features (R ++ R)].
Proof.
have in_f : in_bounds 1 (split_feature split_0_5) by vm_compute.
split; first exact: in_f.
have [[L1 [R1 [L2 [R2 [eq_1 eq_2 eq_cat]]]]] _] :=
  apply_split_cat int X_357 X_357 in_f.
exists L1, R1; split; first exact: eq_1.
by move: eq_2 eq_cat; rewrite eq_1 => -[<- <-].
Defined.

Lemma apply_split_threshold_mono_witness :
  exists j : 'I_1,
    [/\ axis_index 1 (split_feature split_0_5) = Ok j,
        axis_index 1 (split_feature split_0_7) = Ok j,
        (split_threshold split_0_5 <= split_threshold split_0_7)
      & exists L1 R1 L2 R2,
          [/\ _apply_split (U:=int) split_0_5 X_357 None
              = Ok [:: Features L1; Features R1],
              _apply_split (U:=int) split_0_7 X_357 None
              = Ok [:: Features L2; Features R2]
            & subseq L1 L2 /\ subseq R2 R1]].
Proof.
pose j : 'I_1 := @Ordinal 1 0 (erefl true).
have eq_j5 : axis_index 1 (split_feature split_0_5) = Ok j by vm_compute.
have eq_j7 : axis_index 1 (split_feature split_0_7) = Ok j by vm_compute.
have le_57 : split_threshold split_0_5 <= split_threshold split_0_7.
  by vm_compute.
exists j; split; [exact: eq_j5 | exact: eq_j7 | exact: le_57 |].
have [L1 [R1 [L2 [R2 [eq_1 eq_2 _ _ sub_lr]]]]] :=
  apply_split_threshold_mono int X_357 eq_j5 eq_j7 le_57.
by exists L1, R1, L2, R2.
Defined.

Lemma apply_split_commute_witness :
  in_bounds 2 (split_feature split_0_5) /\
  in_bounds 2 (split_feature split_last_3) /\
  exists L1 R1 L2 R2 LL LR RL,
    [/\ _apply_split (U:=int) split_0_5 X_two_columns None
        = Ok [:: Features L1; Features R1],
        _apply_split (U:=int) split_last_3 X_two_columns None
        = Ok [:: Features L2; Features R2],
        _apply_split (U:=int) split_last_3 L1 None
        = Ok [:: Features LL; Features LR]
      & _apply_split (U:=int) split_0_5 L2 None
        = Ok [:: Features LL; Features RL]].
Proof.
have in_1 : in_bounds 2 (split_feature split_0_5) by vm_compute.
have in_2 : in_bounds 2 (split_feature split_last_3) by vm_compute.
split; first exact: in_1.
split; first exact: in_2.
have [L1 [R1 [L2 [R2 [LL [LR [RL [RR [[eq_1 eq_2] eq_3 _ eq_4 _]]]]]]]]] :=
  apply_split_commute int X_two_columns in_1 in_2.
by exists L1, R1, L2, R2, LL, LR, RL.
Defined.

Lemma apply_split_column_only_witness :
  column X_357 (split_feature split_0_5) = Ok [:: 3%Z; 5%Z; 7%Z] /\
  column X_wide (split_feature split_0_5) = Ok [:: 3%Z; 5%Z; 7%Z] /\
  size y_357 = n_samples X_357 /\
  exists L R L' R' Ly Ry,
    _apply_split split_0_5 X_357 (Some y_357)
    = Ok [:: Paired L Ly; Paired R Ry] /\
    _apply_split split_0_5 X_wide (Some y_357)
    = Ok [:: Paired L' Ly; Paired R' Ry].
Proof.
have eq_c : column X_357 (split_feature split_0_5) = Ok [:: 3%Z; 5%Z; 7%Z].
  by [].
have eq_c' : column X_wide (split_feature split_0_5) = Ok [:: 3%Z; 5%Z; 7%Z].
  by [].
have eq_sz : size y_357 = n_samples X_357 by vm_compute.
split; first exact: eq_c.
split; first exact: eq_c'.
split; first exact: eq_sz.
have [L [R [L' [R' [Ly [Ry [eq_1 eq_2 _ _]]]]]]] :=
  apply_split_column_only eq_c eq_c' (erefl _) eq_sz.
by exists L, R, L', R', Ly, Ry.
Defined.

Lemma apply_split_st_distinct_witness :
  (_apply_split_st 0 1 (Some 2) store_357).1
  = Ok [:: PairedRef 5 6; PairedRef 8 10] /\
  uniq [:: 5; 6; 8; 10]%N.
Proof.
have eq_out : (_apply_split_st 0 1 (Some 2) store_357).1
              = Ok [:: PairedRef 5 6; PairedRef 8 10] by [].
split; first exact: eq_out.
by have [] := apply_split_st_distinct eq_out.
Defined.

Lemma apply_split_st_refines_witness :
  load store_357 0 = Some (SplitObj split_0_5) /\
  load store_357 1 = Some (ArrayObj X_357) /\
  target_at store_357 (Some 2) (Some y_357) /\
  exists2 refs,
    (_apply_split_st 0 1 (Some 2) store_357).1 = Ok refs
    & subsets_at (_apply_split_st 0 1 (Some 2) store_357).2 refs
        [:: Paired [:: [tuple 3%Z]; [tuple 5%Z]] [:: 10%Z; 20%Z];
            Paired [:: [tuple 7%Z]] [:: 30%Z]].
Proof.
have eq_s : load store_357 0 = Some (SplitObj split_0_5) by [].
have eq_a : load store_357 1 = Some (ArrayObj X_357) by [].
have eq_y : target_at store_357 (Some 2) (Some y_357) by [].
split; first exact: eq_s.
split; first exact: eq_a.
split; first exact: eq_y.
exact: (apply_split_st_refines eq_s eq_a eq_y).
Defined.

End LawInstances.
